(** * ubbagent: the standalone agent and its reporting pipeline

    [main.go] (flag checks, configuration loading, persistence selection,
    start-up of the HTTP interface, signal-driven shutdown) is embedded as
    a program in a small trace-and-exit monad: every call into another
    package is an observable event, and its result is read from a [World]
    that fixes how the collaborators behave.

    The pipeline behind the HTTP interface (Aggregator, Endpoint,
    RetryingSender) is described by DESIGN.md and the specification; its
    operations are modelled from those descriptions. *)

From Stdlib Require Import ZArith List Ascii String PrimFloat.
From stdpp Require Import gmap strings list sorting pretty.

Local Open Scope string_scope.
Local Open Scope list_scope.
Local Open Scope Z_scope.

(** ** The process monad: a trace of observable events and how the
       computation ended *)

Module Proc.

(** How a computation stops: it returns a value, the process exits with a
    status ([os.Exit]), or it blocks for ever on a channel receive. *)
Inductive Result (A : Type) : Type :=
| Ret (a : A)
| Exit (code : Z)
| Block.
Arguments Ret {A} a.
Arguments Exit {A} code.
Arguments Block {A}.

Definition t (E A : Type) : Type := (list E * Result A)%type.

Definition ret {E A} (a : A) : t E A := ([], Ret a).

Definition bind {E A B} (m : t E A) (k : A → t E B) : t E B :=
  match m with
  | (tr, Ret a) => let '(tr', r) := k a in (tr ++ tr', r)
  | (tr, Exit c) => (tr, Exit c)
  | (tr, Block) => (tr, Block)
  end.

Definition emit {E} (e : E) : t E unit := ([e], Ret tt).
Definition exit {E A} (code : Z) : t E A := ([], Exit code).
Definition block {E A} : t E A := ([], Block).

Definition trace {E A} (m : t E A) : list E := fst m.
Definition result {E A} (m : t E A) : Result A := snd m.

End Proc.

Declare Scope proc_scope.
Delimit Scope proc_scope with proc.
Notation "'let*' x ':=' m 'in' k" := (Proc.bind m (fun x => k))
  (at level 10, x name, m at level 100, k at level 200) : proc_scope.
Notation "m ;;; k" := (Proc.bind m (fun _ => k))
  (at level 100, right associativity) : proc_scope.

(** ** main.go *)

Module Agent.

Import Proc.
Local Open Scope proc_scope.

(** A Go [error], kept as what the [%+v] verb prints for it. *)
Definition error : Type := string.

(** The four command-line flags after [flag.Parse] (lines 16-19). *)
Record Flags : Type := {
  configPath : string;
  stateDir : string;
  noState : bool;
  localPort : Z
}.

(** The two values [persistence.Persistence] can hold in [main]. *)
Inductive Persistence : Type :=
| MemoryPersistence
| DiskPersistence (dir : string).

(** The error handed to the callback of [rest.Start]: the sentinel
    [net/http.ErrServerClosed] or any other error. *)
Inductive HttpError : Type :=
| ErrServerClosed
| OtherHttpError (e : error).

#[export] Instance HttpError_eq_dec : EqDecision HttpError.
Proof. solve_decision. Defined.

Definition HttpError_render (e : HttpError) : error :=
  match e with
  | ErrServerClosed => "http: Server closed"
  | OtherHttpError m => m
  end.

Section WithCollaborators.

(** [*config.Config] and [*app.App] are opaque to [main]. *)
Context {Config App : Type}.

(** What the packages [main] calls into answer, and what the
    environment delivers while [main] waits on its signal channel. *)
Record World : Type := {
  config_Load : string → Config + error;
  cfg_Validate : Config → option error;
  persistence_NewDiskPersistence : string → option error;
  app_NewApp : Config → Persistence → App + error;
  rest_Start : App → Z → option error;
  (** errors passed to the callback given to [rest.Start], in order,
      before the interrupt is received *)
  async_http_errors : list HttpError;
  (** whether [os.Interrupt] ever arrives on the channel *)
  sigint : bool
}.

Inductive Event : Type :=
| Stderr (line : string)
| Stdout (line : string)
| FlagUsage
| GlogInfo (msg : string)
| GlogExit (msg : string)
| GlogFlush
| ConfigLoad (path : string)
| ConfigValidate (cfg : Config)
| NewMemoryPersistence
| NewDiskPersistence (dir : string)
| NewApp (cfg : Config) (p : Persistence)
| NewHttpInterface (a : App) (port : Z)
| RestStart (a : App) (port : Z)
| SignalNotify
| Interrupt
| RestShutdown (a : App) (port : Z)
| AppShutdown (a : App).

Definition M (A : Type) : Type := Proc.t Event A.

(** [fmt.Sprintf] for a format with a single [%v] or [%+v] verb. *)
Fixpoint Sprintf (format : string) (arg : string) : string :=
  match format with
  | EmptyString => EmptyString
  | String "%"%char (String "+"%char (String "v"%char rest)) => arg +:+ rest
  | String "%"%char (String "v"%char rest) => arg +:+ rest
  | String c rest => String c (Sprintf rest arg)
  end.

(** [glog.Exit]: logs to the FATAL log, then calls [os.Exit(1)]. *)
Definition glog_Exit_status : Z := 1.

Definition glog_Exit {A} (msg : string) : M A :=
  emit (GlogExit msg) ;;; exit glog_Exit_status.

(** Lines 84-89. *)
Definition infof (format : string) (arg : string) : M unit :=
  let msg := Sprintf format arg in
  emit (Stdout msg) ;;;
  emit (GlogInfo msg).

(** Lines 91-96. *)
Definition exitf {A} (format : string) (err : error) : M A :=
  let msg := Sprintf format err in
  emit (Stderr msg) ;;;
  glog_Exit msg.

(** Lines 98-107. *)
Definition loadConfig (w : World) (path : string) : M Config :=
  emit (ConfigLoad path) ;;;
  match config_Load w path with
  | inr err => exitf "invalid configuration file: %+v" err
  | inl cfg =>
      emit (ConfigValidate cfg) ;;;
      match cfg_Validate w cfg with
      | Some err => exitf "invalid configuration file: %+v" err
      | None => ret cfg
      end
  end.

(** The function literal passed to [rest.Start] (lines 63-68). *)
Definition onHttpError (err : HttpError) : M unit :=
  if decide (err ≠ ErrServerClosed)
  then exitf "http: %+v" (HttpError_render err)
  else ret tt.

(** The callback runs once per asynchronous error. *)
Fixpoint deliver (errs : list HttpError) : M unit :=
  match errs with
  | [] => ret tt
  | e :: rest => onHttpError e ;;; deliver rest
  end.

(** [<-c] on line 76: asynchronous HTTP errors that arrive first go
    through the callback; then the interrupt is received, or the
    receive blocks.  The server calls the callback from a goroutine of
    its own, at any moment from [rest.Start] on; here the errors are
    delivered while [main] waits, one schedule among those.  What is
    stated of the events before or after the wait is stated so that it
    does not depend on that choice, or says that it does. *)
Definition await_interrupt (w : World) : M unit :=
  deliver (async_http_errors w) ;;;
  if sigint w then emit Interrupt else block.

(** Lines 24-82, after [flag.Parse]. *)
Definition main (f : Flags) (w : World) : M unit :=
  (if String.eqb (configPath f) ""
   then emit (Stderr "configuration file must be specified") ;;;
        emit FlagUsage ;;;
        exit 2
   else ret tt) ;;;
  (if String.eqb (stateDir f) "" && negb (noState f)
   then emit (Stderr "state directory must be specified (or use --no-state)") ;;;
        emit FlagUsage ;;;
        exit 2
   else ret tt) ;;;
  (if localPort f =? 0
   then emit (Stderr "local-port must be > 0") ;;;
        emit FlagUsage ;;;
        exit 2
   else ret tt) ;;;
  let* cfg := loadConfig w (configPath f) in
  let* p := (if noState f
       then emit NewMemoryPersistence ;;; ret MemoryPersistence
       else emit (NewDiskPersistence (stateDir f)) ;;;
            match persistence_NewDiskPersistence w (stateDir f) with
            | Some err => exitf "startup: %+v" err
            | None => ret (DiskPersistence (stateDir f))
            end) in
  emit (NewApp cfg p) ;;;
  let* a := (match app_NewApp w cfg p with
             | inr err => exitf "startup: %+v" err
             | inl a => ret a
             end) in
  emit (NewHttpInterface a (localPort f)) ;;;
  emit (RestStart a (localPort f)) ;;;
  (match rest_Start w a (localPort f) with
   | Some err => exitf "startup: %+v" err
   | None => ret tt
   end) ;;;
  infof "Listening locally on port %v" (pretty (localPort f)) ;;;
  emit SignalNotify ;;;
  await_interrupt w ;;;
  infof "Shutting down..." "" ;;;
  emit (RestShutdown a (localPort f)) ;;;
  emit (AppShutdown a) ;;;
  emit GlogFlush.

(** The exit status of the process: a [main] that returns exits 0. *)
Inductive Outcome : Type :=
| Exited (code : Z)
| Waiting.

Definition outcome {A} (m : M A) : Outcome :=
  match result m with
  | Ret _ => Exited 0
  | Exit c => Exited c
  | Block => Waiting
  end.

(** *** Vocabulary for the properties of [main] *)

(** The three flag checks of lines 27-43 all pass. *)
Definition flags_pass (f : Flags) : Prop :=
  configPath f ≠ "" ∧ (stateDir f ≠ "" ∨ noState f = true) ∧ localPort f ≠ 0.

(** [p] is the persistence lines 46-55 construct without error. *)
Definition persistence_ready (f : Flags) (w : World) (p : Persistence) : Prop :=
  (noState f = true ∧ p = MemoryPersistence) ∨
  (noState f = false ∧
   persistence_NewDiskPersistence w (stateDir f) = None ∧
   p = DiskPersistence (stateDir f)).

(** Start-up runs to the signal wait with configuration [cfg],
    persistence [p] and app [a]. *)
Definition starts_up (f : Flags) (w : World) (cfg : Config)
    (p : Persistence) (a : App) : Prop :=
  flags_pass f ∧
  config_Load w (configPath f) = inl cfg ∧
  cfg_Validate w cfg = None ∧
  persistence_ready f w p ∧
  app_NewApp w cfg p = inl a ∧
  rest_Start w a (localPort f) = None.

(** What a successful start-up leaves on the trace (lines 45-75). *)
Definition startup_events (f : Flags) (cfg : Config) (p : Persistence)
    (a : App) : list Event :=
  [ConfigLoad (configPath f);
   ConfigValidate cfg;
   (if noState f then NewMemoryPersistence else NewDiskPersistence (stateDir f));
   NewApp cfg p;
   NewHttpInterface a (localPort f);
   RestStart a (localPort f);
   Stdout (Sprintf "Listening locally on port %v" (pretty (localPort f)));
   GlogInfo (Sprintf "Listening locally on port %v" (pretty (localPort f)));
   SignalNotify].

(** What [exitf] leaves on the trace. *)
Definition exitf_events (format : string) (err : error) : list Event :=
  [Stderr (Sprintf format err); GlogExit (Sprintf format err)].


(** What the shutdown sequence leaves on the trace (lines 78-81). *)
Definition shutdown_events (f : Flags) (a : App) : list Event :=
  [Stdout "Shutting down..."; GlogInfo "Shutting down...";
   RestShutdown a (localPort f); AppShutdown a; GlogFlush].

(** The event of lines 47-51 for the persistence the flags select. *)
Definition persistence_event (f : Flags) : Event :=
  if noState f then NewMemoryPersistence else NewDiskPersistence (stateDir f).

(** All errors the server reported are [ErrServerClosed]. *)
Definition only_closed (errs : list HttpError) : Prop :=
  Forall (λ e, e = ErrServerClosed) errs.

(** An event of the shutdown sequence proper (lines 79-81). *)
Definition is_shutdown (e : Event) : Prop :=
  match e with
  | RestShutdown _ _ | AppShutdown _ | GlogFlush => True
  | _ => False
  end.

(** An event that constructs a persistence (lines 47-51). *)
Definition constructs_persistence (e : Event) : Prop :=
  match e with
  | NewMemoryPersistence | NewDiskPersistence _ => True
  | _ => False
  end.

(** The configuration behind --config loads and passes validation. *)
Definition config_valid (f : Flags) (w : World) (cfg : Config) : Prop :=
  config_Load w (configPath f) = inl cfg ∧ cfg_Validate w cfg = None.

(** The shapes a run of [main] can take, one per way out of lines 24-82:
    the three flag checks, the two failures of [loadConfig], the failure
    of the disk persistence, of [app.NewApp] and of [rest.Start], a fatal
    asynchronous HTTP error, the interrupt, and the wait that never
    ends. *)
Inductive Run (f : Flags) (w : World) : M unit → Prop :=
| run_no_config :
    configPath f = "" →
    Run f w ([Stderr "configuration file must be specified"; FlagUsage], Exit 2)
| run_no_state_dir :
    configPath f ≠ "" → stateDir f = "" → noState f = false →
    Run f w ([Stderr "state directory must be specified (or use --no-state)";
              FlagUsage], Exit 2)
| run_no_port :
    configPath f ≠ "" → stateDir f ≠ "" ∨ noState f = true →
    localPort f = 0 →
    Run f w ([Stderr "local-port must be > 0"; FlagUsage], Exit 2)
| run_load_fails err :
    flags_pass f →
    config_Load w (configPath f) = inr err →
    Run f w (ConfigLoad (configPath f) ::
               exitf_events "invalid configuration file: %+v" err,
             Exit 1)
| run_validate_fails cfg err :
    flags_pass f →
    config_Load w (configPath f) = inl cfg →
    cfg_Validate w cfg = Some err →
    Run f w (ConfigLoad (configPath f) :: ConfigValidate cfg ::
               exitf_events "invalid configuration file: %+v" err,
             Exit 1)
| run_disk_fails cfg err :
    flags_pass f →
    config_Load w (configPath f) = inl cfg →
    cfg_Validate w cfg = None →
    noState f = false →
    persistence_NewDiskPersistence w (stateDir f) = Some err →
    Run f w ([ConfigLoad (configPath f); ConfigValidate cfg;
              NewDiskPersistence (stateDir f)] ++
               exitf_events "startup: %+v" err,
             Exit 1)
| run_NewApp_fails cfg p err :
    flags_pass f →
    config_Load w (configPath f) = inl cfg →
    cfg_Validate w cfg = None →
    persistence_ready f w p →
    app_NewApp w cfg p = inr err →
    Run f w ([ConfigLoad (configPath f); ConfigValidate cfg;
              persistence_event f; NewApp cfg p] ++
               exitf_events "startup: %+v" err,
             Exit 1)
| run_Start_fails cfg p a err :
    flags_pass f →
    config_Load w (configPath f) = inl cfg →
    cfg_Validate w cfg = None →
    persistence_ready f w p →
    app_NewApp w cfg p = inl a →
    rest_Start w a (localPort f) = Some err →
    Run f w ([ConfigLoad (configPath f); ConfigValidate cfg;
              persistence_event f; NewApp cfg p;
              NewHttpInterface a (localPort f); RestStart a (localPort f)] ++
               exitf_events "startup: %+v" err,
             Exit 1)
| run_http_fails cfg p a pre e post :
    starts_up f w cfg p a →
    async_http_errors w = pre ++ e :: post →
    only_closed pre →
    e ≠ ErrServerClosed →
    Run f w (startup_events f cfg p a ++
               exitf_events "http: %+v" (HttpError_render e),
             Exit 1)
| run_interrupted cfg p a :
    starts_up f w cfg p a →
    only_closed (async_http_errors w) →
    sigint w = true →
    Run f w (startup_events f cfg p a ++ Interrupt :: shutdown_events f a,
             Ret tt)
| run_waiting cfg p a :
    starts_up f w cfg p a →
    only_closed (async_http_errors w) →
    sigint w = false →
    Run f w (startup_events f cfg p a, Block).

End WithCollaborators.

Arguments World : clear implicits.
Arguments Event : clear implicits.

End Agent.

(** Concrete invocations and worlds. *)

Module Scenario.

Import Agent.

(** Every collaborator succeeds; one [ErrServerClosed] is reported and
    the interrupt arrives. *)
Definition healthy : World string unit := {|
  config_Load := λ path, inl ("metrics of " +:+ path);
  cfg_Validate := λ _, None;
  persistence_NewDiskPersistence := λ _, None;
  app_NewApp := λ _ _, inl tt;
  rest_Start := λ _ _, None;
  async_http_errors := [ErrServerClosed];
  sigint := true
|}.

(** The configuration file cannot be read. *)
Definition unreadable_config : World string unit := {|
  config_Load := λ _, inr "open agent.yaml: no such file or directory";
  cfg_Validate := λ _, None;
  persistence_NewDiskPersistence := λ _, None;
  app_NewApp := λ _ _, inl tt;
  rest_Start := λ _ _, None;
  async_http_errors := [];
  sigint := true
|}.

(** The state directory cannot be created. *)
Definition readonly_disk : World string unit := {|
  config_Load := λ path, inl ("metrics of " +:+ path);
  cfg_Validate := λ _, None;
  persistence_NewDiskPersistence := λ _, Some "mkdir /var/ubbagent: read-only file system";
  app_NewApp := λ _ _, inl tt;
  rest_Start := λ _ _, None;
  async_http_errors := [];
  sigint := true
|}.


(** [app.NewApp] rejects the configuration. *)
Definition app_rejects : World string unit := {|
  config_Load := λ path, inl ("metrics of " +:+ path);
  cfg_Validate := λ _, None;
  persistence_NewDiskPersistence := λ _, None;
  app_NewApp := λ _ _, inr "unsupported endpoint";
  rest_Start := λ _ _, None;
  async_http_errors := [];
  sigint := true
|}.

(** [rest.Start] fails at once. *)
Definition start_refused : World string unit := {|
  config_Load := λ path, inl ("metrics of " +:+ path);
  cfg_Validate := λ _, None;
  persistence_NewDiskPersistence := λ _, None;
  app_NewApp := λ _ _, inl tt;
  rest_Start := λ _ _, Some "http: already started";
  async_http_errors := [];
  sigint := true
|}.

(** Every collaborator succeeds and no interrupt ever arrives. *)
Definition never_interrupted : World string unit := {|
  config_Load := λ path, inl ("metrics of " +:+ path);
  cfg_Validate := λ _, None;
  persistence_NewDiskPersistence := λ _, None;
  app_NewApp := λ _ _, inl tt;
  rest_Start := λ _ _, None;
  async_http_errors := [];
  sigint := false
|}.

Definition with_state : Flags :=
  {| configPath := "agent.yaml"; stateDir := "/var/ubbagent";
     noState := false; localPort := 3456 |}.

Definition without_state : Flags :=
  {| configPath := "agent.yaml"; stateDir := "";
     noState := true; localPort := 3456 |}.

Definition no_config : Flags :=
  {| configPath := ""; stateDir := "/var/ubbagent";
     noState := false; localPort := 3456 |}.

Definition no_state_dir : Flags :=
  {| configPath := "agent.yaml"; stateDir := "";
     noState := false; localPort := 3456 |}.

Definition negative_port : Flags :=
  {| configPath := "agent.yaml"; stateDir := "";
     noState := true; localPort := -1 |}.

End Scenario.

(** ** The Aggregator

    The aggregator's code is not part of the sources at hand; DESIGN.md
    (lines 14-45) describes it and the specification (sections 3 and 4.6)
    fixes its state and its [accept] operation.  Instants are integers
    (a count of clock ticks). *)

Module Aggregator.

Inductive ValueKind : Type := Int64Kind | DoubleKind.

#[export] Instance ValueKind_eq_dec : EqDecision ValueKind.
Proof. solve_decision. Defined.

(** Modelled from the spec: the [ScalarValue] of section 3, a tagged
    variant over the numeric kinds [int64] and [double]; a double is an
    IEEE 754 binary64 number. *)
Inductive ScalarValue : Type :=
| Int64Value (i : Z)
| DoubleValue (d : float).

Definition valueKind (v : ScalarValue) : ValueKind :=
  match v with
  | Int64Value _ => Int64Kind
  | DoubleValue _ => DoubleKind
  end.

(** Two's-complement wrap-around of a 64-bit signed integer. *)
Definition wrap64 (z : Z) : Z := (z + 2 ^ 63) mod 2 ^ 64 - 2 ^ 63.


(** Modelled from the spec: the sum of two values of one kind (the
    aggregator's own code is missing): 64-bit integer addition for
    [int64], IEEE addition for [double].  Values of different kinds never
    meet in a bucket ([accept] checks the kind against the schema); the
    left operand is kept for them. *)
Definition add_value (a b : ScalarValue) : ScalarValue :=
  match a, b with
  | Int64Value x, Int64Value y => Int64Value (wrap64 (x + y))
  | DoubleValue x, DoubleValue y => DoubleValue (PrimFloat.add x y)
  | _, _ => a
  end.

(** Modelled from the spec: the [MetricReport] of section 3. *)
Record MetricReport : Type := {
  name : string;
  value : ScalarValue;
  startTime : Z;
  endTime : Z;
  labels : gmap string string
}.

(** The bucket key [(name, labels)]. *)
Definition Key : Type := (string * gmap string string)%type.

Definition key (r : MetricReport) : Key := (name r, labels r).

(** Modelled from the spec: the aggregator closure rule of section 3
    (the aggregator's own code is missing): the value is the sum,
    [startTime = min(starts)], [endTime = max(ends)], labels preserved. *)
Definition combine (a b : MetricReport) : MetricReport :=
  {| name := name a;
     value := add_value (value a) (value b);
     startTime := Z.min (startTime a) (startTime b);
     endTime := Z.max (endTime a) (endTime b);
     labels := labels a |}.

(** DESIGN.md, lines 27-32, words the same step by position: C starts
    where A (the aggregate so far) starts and ends where B (the report
    that arrives) ends. *)
Definition combine_design (a b : MetricReport) : MetricReport :=
  {| name := name a;
     value := add_value (value a) (value b);
     startTime := startTime a;
     endTime := endTime b;
     labels := labels a |}.

(** Modelled from the spec: the aggregator state of section 4.6 (the
    aggregator's own code is missing): the in-progress aggregate and the
    [lastAcceptedEndTime] of every bucket.  The window timer and the
    persisted snapshot are left out. *)
Record State : Type := {
  buckets : gmap Key MetricReport;
  lastAcceptedEndTime : gmap Key Z
}.

Definition initial : State :=
  {| buckets := ∅; lastAcceptedEndTime := ∅ |}.

(** The reasons of a rejection (section 4.6). *)
Inductive Reason : Type :=
| unknown_metric
| type_mismatch
| overlapping_window
| invalid_range.

Inductive Verdict : Type :=
| accepted
| rejected (reason : Reason).

(** [report.startTime < lastAcceptedEndTime[bucket]] *)
Definition overlaps (s : State) (r : MetricReport) : bool :=
  match lastAcceptedEndTime s !! key r with
  | Some e => startTime r <? e
  | None => false
  end.


(** Modelled from the spec: the four rejection rules of section 4.6, in
    the order the specification lists them; every rule that applies
    contributes its reason. *)
Definition violations (schema : gmap string ValueKind) (s : State)
    (r : MetricReport) : list Reason :=
  (match schema !! name r with
   | None => [unknown_metric]
   | Some kind =>
       if decide (valueKind (value r) = kind) then [] else [type_mismatch]
   end) ++
  (if overlaps s r then [overlapping_window] else []) ++
  (if endTime r <? startTime r then [invalid_range] else []).

(** Look up or create the aggregate and combine. *)
Definition merge (o : option MetricReport) (r : MetricReport) : MetricReport :=
  match o with
  | Some agg => combine agg r
  | None => r
  end.

(** The bucket update of an accepted report. *)
Definition absorb (b : gmap Key MetricReport) (r : MetricReport)
    : gmap Key MetricReport :=
  <[key r := merge (b !! key r) r]> b.


(** [lastAcceptedEndTime[bucket] := max(prev, report.endTime)] *)
Definition advance (t : gmap Key Z) (r : MetricReport) : gmap Key Z :=
  <[key r := match t !! key r with
             | Some prev => Z.max prev (endTime r)
             | None => endTime r
             end]> t.

(** Modelled from the spec: the operation [accept] of section 4.6 (the
    aggregator's own code is missing).  A report that breaks a rule is
    rejected with the first reason that applies and the state is left as
    it was. *)
Definition accept (schema : gmap string ValueKind) (s : State)
    (r : MetricReport) : State * Verdict :=
  match violations schema s r with
  | reason :: _ => (s, rejected reason)
  | [] =>
      ({| buckets := absorb (buckets s) r;
          lastAcceptedEndTime := advance (lastAcceptedEndTime s) r |},
       accepted)
  end.

(** Modelled from the spec: the [MetricBatch] of section 3. *)
Record MetricBatch : Type := {
  batchId : string;
  reports : list MetricReport
}.

(** Modelled from the spec: window close (section 4.6).  The batch is
    formed from all current buckets under the identifier [id]; when the
    dispatcher acknowledges it ([ack]) the buckets are cleared, otherwise
    they are retained.  [lastAcceptedEndTime] is preserved either way. *)
Definition closeWindow (id : string) (ack : bool) (s : State)
    : State * MetricBatch :=
  (if ack
   then {| buckets := ∅; lastAcceptedEndTime := lastAcceptedEndTime s |}
   else s,
   {| batchId := id; reports := (map_to_list (buckets s)).*2 |}).

(** What reaches the aggregator's serialization point. *)
Inductive Input : Type :=
| Report (r : MetricReport)
| WindowClose (id : string) (ack : bool).

Definition step (schema : gmap string ValueKind) (s : State) (i : Input) : State :=
  match i with
  | Report r => (accept schema s r).1
  | WindowClose id ack => (closeWindow id ack s).1
  end.

Definition run (schema : gmap string ValueKind) (s : State)
    (inputs : list Input) : State :=
  foldl (step schema) s inputs.


(** Feeding reports only: the state and the verdicts, in order. *)
Fixpoint accept_all (schema : gmap string ValueKind) (s : State)
    (rs : list MetricReport) : State * list Verdict :=
  match rs with
  | [] => (s, [])
  | r :: rest =>
      let '(s', v) := accept schema s r in
      let '(s'', vs) := accept_all schema s' rest in
      (s'', v :: vs)
  end.











(** Every aggregate sits under its own key, covers a proper range and
    ends no later than the bucket's [lastAcceptedEndTime]. *)
Definition coherent (s : State) : Prop :=
  ∀ k agg, buckets s !! k = Some agg →
    key agg = k ∧ startTime agg ≤ endTime agg ∧
    ∃ e, lastAcceptedEndTime s !! k = Some e ∧ endTime agg ≤ e.

(** *** Concrete reports *)

Definition requests : gmap string ValueKind :=
  {[ "req" := Int64Kind; "cpu" := DoubleKind ]}.

Definition req (v t0 t1 : Z) : MetricReport :=
  {| name := "req"; value := Int64Value v;
     startTime := t0; endTime := t1; labels := ∅ |}.

Definition cpu (v : float) (t0 t1 : Z) : MetricReport :=
  {| name := "cpu"; value := DoubleValue v;
     startTime := t0; endTime := t1; labels := ∅ |}.

(** A [req] report that carries a double. *)
Definition req_as_double (v : float) (t0 t1 : Z) : MetricReport :=
  {| name := "req"; value := DoubleValue v;
     startTime := t0; endTime := t1; labels := ∅ |}.

(** The state after [req 5 0 2] was accepted. *)
Definition after_0_2 : State := (accept requests initial (req 5 0 2)).1.



End Aggregator.

(** ** Endpoint and RetryingSender

    Neither is part of the sources at hand; DESIGN.md (lines 52-70)
    describes them and the specification (sections 3, 4.2 and 4.3) fixes
    the queue entry, the two endpoint operations and the per-entry state
    machine. *)

Module RetryingSender.

Import Aggregator.

(** Modelled from the spec: the [EndpointReport] of section 3 (the
    endpoint code is missing): an endpoint-specific payload that carries
    the dedup identifier. *)
Record EndpointReport (Payload : Type) : Type := {
  dedupId : string;
  payload : Payload
}.
Arguments dedupId {Payload} _.
Arguments payload {Payload} _.

(** The endpoint-specific part of building a report. *)
Class Endpoint (Payload : Type) : Type := {
  render : MetricBatch → Payload
}.

(** Modelled from the spec: [buildReport] of section 4.2 (the endpoint
    code is missing).  The identifier [uuid] is drawn here and fixed
    into the report. *)
Definition buildReport {Payload} `{Endpoint Payload}
    (uuid : string) (batch : MetricBatch) : EndpointReport Payload :=
  {| dedupId := uuid; payload := render batch |}.

(** The three results of [send] (section 4.2). *)
Inductive SendResult : Type :=
| success
| transient_failure
| permanent_failure.

(** Modelled from the spec: the [QueueEntry] of section 3. *)
Record QueueEntry (Payload : Type) : Type := {
  endpointReport : EndpointReport Payload;
  firstAttempt : Z;
  nextAttempt : Z;
  failureCount : nat
}.
Arguments endpointReport {Payload} _.
Arguments firstAttempt {Payload} _.
Arguments nextAttempt {Payload} _.
Arguments failureCount {Payload} _.

(** Modelled from the spec: the sender's state (sections 3 and 4.3; the
    sender code is missing): its queue and the mirror kept by
    Persistence. *)
Record Sender (Payload : Type) : Type := {
  queue : list (QueueEntry Payload);
  stored : list (QueueEntry Payload)
}.
Arguments queue {Payload} _.
Arguments stored {Payload} _.

Section WithEndpoint.

Context {Payload : Type} `{Endpoint Payload}.

(** Retry parameters: the attempt bound, the lifetime bound and the
    backoff schedule, which gives the instant of the next attempt from
    the failure count and the current instant (jitter included). *)
Variable maxAttempts : nat.
Variable maxLifetime : Z.
Variable backoff : nat → Z → Z.

Definition empty : Sender Payload := {| queue := []; stored := [] |}.

(** Modelled from the spec: every queue mutation is persisted (section
    4.3; the sender code is missing). *)
Definition persist (q : list (QueueEntry Payload)) : Sender Payload :=
  {| queue := q; stored := q |}.

(** Modelled from the spec: [enqueue] of section 4.3 (the sender code
    is missing): build the report, append the entry, persist. *)
Definition enqueue (uuid : string) (batch : MetricBatch) (now : Z)
    (s : Sender Payload) : Sender Payload :=
  persist (queue s ++
           [{| endpointReport := buildReport uuid batch;
               firstAttempt := now;
               nextAttempt := now;
               failureCount := 0 |}]).

(** The entry is given up: attempt bound or lifetime bound reached. *)
Definition exhausted (now : Z) (e : QueueEntry Payload) : bool :=
  (maxAttempts <=? failureCount e)%nat || (maxLifetime <=? now - firstAttempt e).

(** Modelled from the spec: Pending again after a transient failure
    (section 4.3; the sender code is missing): bump [failureCount] and
    recompute [nextAttempt]; the report is the one built at enqueue. *)
Definition retry_later (now : Z) (e : QueueEntry Payload) : QueueEntry Payload :=
  {| endpointReport := endpointReport e;
     firstAttempt := firstAttempt e;
     nextAttempt := backoff (S (failureCount e)) now;
     failureCount := S (failureCount e) |}.

(** Modelled from the spec: one turn of the background worker under the
    per-entry state machine of section 4.3 (the sender code is
    missing).  The worker looks at the queue head only; when the head
    is due it calls [send] with the head's report, and [outcome] is
    what the call returns.  The result is the new sender and the
    report sent, if any. *)
Definition work (now : Z) (outcome : SendResult) (s : Sender Payload)
    : Sender Payload * option (EndpointReport Payload) :=
  match queue s with
  | [] => (s, None)
  | e :: rest =>
      if now <? nextAttempt e then (s, None)
      else
        (match outcome with
         | success => persist rest
         | permanent_failure => persist rest
         | transient_failure =>
             let e' := retry_later now e in
             if exhausted now e' then persist rest else persist (e' :: rest)
         end,
         Some (endpointReport e))
  end.

(** Modelled from the spec: recovery (section 4.3; the sender code is
    missing): the queue is reloaded from Persistence. *)
Definition recover (s : Sender Payload) : Sender Payload :=
  {| queue := stored s; stored := stored s |}.

Inductive Input : Type :=
| Enqueue (uuid : string) (batch : MetricBatch) (now : Z)
| Tick (now : Z) (outcome : SendResult)
| Restart.

Definition step (s : Sender Payload) (i : Input)
    : Sender Payload * option (EndpointReport Payload) :=
  match i with
  | Enqueue uuid batch now => (enqueue uuid batch now s, None)
  | Tick now outcome => work now outcome s
  | Restart => (recover s, None)
  end.

(** The reports handed to [send] during a run, oldest first. *)
Fixpoint attempts (s : Sender Payload) (inputs : list Input)
    : list (EndpointReport Payload) :=
  match inputs with
  | [] => []
  | i :: rest =>
      let '(s', sent) := step s i in
      match sent with
      | Some r => r :: attempts s' rest
      | None => attempts s' rest
      end
  end.

(** The reports built during a run, in enqueue order. *)
Fixpoint built (inputs : list Input) : list (EndpointReport Payload) :=
  match inputs with
  | [] => []
  | Enqueue uuid batch _ :: rest => buildReport uuid batch :: built rest
  | _ :: rest => built rest
  end.

(** The identifiers drawn during a run, in enqueue order. *)
Fixpoint drawn (inputs : list Input) : list string :=
  match inputs with
  | [] => []
  | Enqueue uuid _ _ :: rest => uuid :: drawn rest
  | _ :: rest => drawn rest
  end.

(** [blocks [n1; n2; ...] [r1; r2; ...]] is [n1] copies of [r1], then
    [n2] copies of [r2], and so on. *)
Fixpoint blocks {A} (ns : list nat) (rs : list A) : list A :=
  match ns, rs with
  | n :: ns', r :: rs' => replicate n r ++ blocks ns' rs'
  | _, _ => []
  end.

End WithEndpoint.

(** *** A concrete endpoint and run *)

(** An endpoint whose payload is the number of reports in the batch. *)
#[export] Instance counting_endpoint : Endpoint nat :=
  {| render := λ batch, length (reports batch) |}.

Definition batch_1 : MetricBatch :=
  {| batchId := "1"; reports := [req 12 0 2] |}.

(** A backoff schedule that doubles the delay with every failure. *)
Definition doubling (n : nat) (now : Z) : Z := now + 2 ^ Z.of_nat n.

(** One batch is enqueued under the identifier [id-1]; the first two
    sends fail transiently (a restart in between), the third succeeds. *)
Definition two_retries : list Input :=
  [Enqueue "id-1" batch_1 0;
   Tick 0 transient_failure;
   Restart;
   Tick 5 transient_failure;
   Tick 9 success].

End RetryingSender.

(** * Properties of [main] *)

Section AgentProperties.

Import Proc Agent.
Context {Config App : Type}.
Implicit Types (f : Flags) (w : World Config App).

Lemma eqb_empty_false (s : string) : s ≠ "" → String.eqb s "" = false.
Proof. intros Hs. by apply String.eqb_neq. Qed.

(** The callback leaves nothing on the trace for [ErrServerClosed]. *)
Lemma deliver_closed (errs : list HttpError) :
  Forall (λ e, e = ErrServerClosed) errs →
  @deliver Config App errs = ([], Ret tt).
Proof.
  induction 1 as [|e errs -> _ IH]; [done|].
  simpl. by rewrite IH.
Qed.

(** The first error that is not [ErrServerClosed] ends the process. *)
Lemma deliver_fatal (pre post : list HttpError) (e : HttpError) :
  Forall (λ e, e = ErrServerClosed) pre →
  e ≠ ErrServerClosed →
  @deliver Config App (pre ++ e :: post)
  = (exitf_events "http: %+v" (HttpError_render e), Exit glog_Exit_status).
Proof.
  induction 1 as [|e' pre -> _ IH]; intros He.
  - simpl. unfold onHttpError. by destruct (decide (e ≠ ErrServerClosed)).
  - simpl. by rewrite IH.
Qed.


Lemma state_check_false f :
  stateDir f ≠ "" ∨ noState f = true →
  (String.eqb (stateDir f) "" && negb (noState f)) = false.
Proof.
  intros [Hs| ->]; [by rewrite (eqb_empty_false _ Hs)|].
  by rewrite andb_false_r.
Qed.

(** Unfold [main] and step over the three flag checks. *)
Ltac pass_checks H :=
  let Hc := fresh "Hc" in
  let Hs := fresh "Hs" in
  let Hp := fresh "Hp" in
  destruct H as (Hc & Hs & Hp);
  unfold main;
  rewrite (eqb_empty_false _ Hc), (state_check_false _ Hs),
    (proj2 (Z.eqb_neq _ _) Hp).


(** Step over the construction of the persistence. *)
Ltac pass_persistence H :=
  let Hn := fresh "Hn" in
  let Hd := fresh "Hd" in
  destruct H as [(Hn & ->)|(Hn & Hd & ->)]; rewrite Hn; [|rewrite ?Hd].

Lemma main_load_fails f w err :
  flags_pass f →
  config_Load w (configPath f) = inr err →
  main f w
  = (ConfigLoad (configPath f) :: exitf_events "invalid configuration file: %+v" err,
     Exit glog_Exit_status).
Proof.
  intros Hf Hl. pass_checks Hf. unfold loadConfig. by rewrite Hl.
Qed.

Lemma main_validate_fails f w cfg err :
  flags_pass f →
  config_Load w (configPath f) = inl cfg →
  cfg_Validate w cfg = Some err →
  main f w
  = (ConfigLoad (configPath f) :: ConfigValidate cfg ::
       exitf_events "invalid configuration file: %+v" err,
     Exit glog_Exit_status).
Proof.
  intros Hf Hl Hv. pass_checks Hf. unfold loadConfig. by rewrite Hl, Hv.
Qed.

Lemma main_disk_fails f w cfg err :
  flags_pass f →
  config_Load w (configPath f) = inl cfg →
  cfg_Validate w cfg = None →
  noState f = false →
  persistence_NewDiskPersistence w (stateDir f) = Some err →
  main f w
  = ([ConfigLoad (configPath f); ConfigValidate cfg;
      NewDiskPersistence (stateDir f)] ++ exitf_events "startup: %+v" err,
     Exit glog_Exit_status).
Proof.
  intros Hf Hl Hv Hn Hd. pass_checks Hf. unfold loadConfig.
  by rewrite Hl, Hv, Hn, Hd.
Qed.

(** The trace up to and including the call of [app.NewApp]. *)
Lemma main_calls_NewApp f w cfg p :
  flags_pass f →
  config_Load w (configPath f) = inl cfg →
  cfg_Validate w cfg = None →
  persistence_ready f w p →
  ∃ tr,
    trace (main f w)
    = [ConfigLoad (configPath f); ConfigValidate cfg;
       (if noState f then NewMemoryPersistence
        else NewDiskPersistence (stateDir f));
       NewApp cfg p] ++ tr.
Proof.
  intros Hf Hl Hv Hp. pass_checks Hf. unfold loadConfig.
  rewrite Hl, Hv. pass_persistence Hp; simpl.
  all: destruct (app_NewApp w cfg _) as [a|err]; simpl; [|by eauto].
  all: destruct (rest_Start w a (localPort f)); simpl; [by eauto|].
  all: destruct (await_interrupt w) as [tr [[]|c|]]; simpl; by eauto.
Qed.

Lemma main_started f w cfg p a :
  starts_up f w cfg p a →
  main f w
  = match await_interrupt w with
    | (tr, Ret _) =>
        (startup_events f cfg p a ++ tr ++
           [Stdout "Shutting down..."; GlogInfo "Shutting down...";
            RestShutdown a (localPort f); AppShutdown a; GlogFlush],
         Ret tt)
    | (tr, Exit c) => (startup_events f cfg p a ++ tr, Exit c)
    | (tr, Block) => (startup_events f cfg p a ++ tr, Block)
    end.
Proof.
  intros (Hf & Hl & Hv & Hp & Ha & Hr). pass_checks Hf. unfold loadConfig.
  rewrite Hl, Hv. unfold startup_events.
  pass_persistence Hp; simpl; rewrite Ha; simpl; rewrite Hr; simpl.
  all: by destruct (await_interrupt w) as [tr [[]|c|]].
Qed.

Lemma main_reaches_loadConfig f w :
  flags_pass f →
  ∃ tr, trace (main f w) = ConfigLoad (configPath f) :: tr.
Proof.
  intros Hf.
  destruct (config_Load w (configPath f)) as [cfg|err] eqn:Hl;
    [|rewrite (main_load_fails f w err); by eauto].
  destruct (cfg_Validate w cfg) as [err|] eqn:Hv;
    [rewrite (main_validate_fails f w cfg err); by eauto|].
  destruct (noState f) eqn:Hn.
  - destruct (main_calls_NewApp f w cfg MemoryPersistence) as [tr ->];
      [done..|by left|by eauto].
  - destruct (persistence_NewDiskPersistence w (stateDir f)) as [err|] eqn:Hd.
    + rewrite (main_disk_fails f w cfg err); by eauto.
    + destruct (main_calls_NewApp f w cfg (DiskPersistence (stateDir f)))
        as [tr ->]; [done..|by right|by eauto].
Qed.


(** C4: an empty --config, or an empty --state-dir without --no-state,
    prints the usage message and exits with status 2 with nothing else
    on the trace (no configuration is loaded, no persistence is
    constructed); in every other combination of these flags [main]
    goes on to the --local-port check, and past it to [loadConfig]. *)
Theorem required_flags_checked f w :
  (configPath f = "" →
     main f w
     = ([Stderr "configuration file must be specified"; FlagUsage], Exit 2)) ∧
  (configPath f ≠ "" → stateDir f = "" → noState f = false →
     main f w
     = ([Stderr "state directory must be specified (or use --no-state)";
         FlagUsage], Exit 2)) ∧
  (configPath f ≠ "" → stateDir f ≠ "" ∨ noState f = true →
     (localPort f = 0 ∧
      main f w = ([Stderr "local-port must be > 0"; FlagUsage], Exit 2)) ∨
     (localPort f ≠ 0 ∧
      ∃ tr, trace (main f w) = ConfigLoad (configPath f) :: tr)).
Proof.
  split; [|split].
  - intros Hc. unfold main. by rewrite Hc.
  - intros Hc Hs Hn. unfold main.
    by rewrite (eqb_empty_false _ Hc), Hs, Hn.
  - intros Hc Hs.
    destruct (decide (localPort f = 0)) as [Hp|Hp]; [left|right]; split; try done.
    + unfold main.
      by rewrite (eqb_empty_false _ Hc), (state_check_false _ Hs), Hp.
    + by apply main_reaches_loadConfig.
Qed.

(** C5: the persistence is chosen by --no-state alone.  With --no-state
    the in-memory persistence is constructed and handed to [app.NewApp],
    and the run does not depend on --state-dir; without it the disk
    persistence rooted at --state-dir is constructed, and a failure of
    that construction ends the process through [exitf] before
    [app.NewApp] is called. *)
Theorem persistence_selected_by_noState f w cfg :
  flags_pass f →
  config_Load w (configPath f) = inl cfg →
  cfg_Validate w cfg = None →
  (noState f = true →
     (∃ tr, trace (main f w)
            = [ConfigLoad (configPath f); ConfigValidate cfg;
               NewMemoryPersistence; NewApp cfg MemoryPersistence] ++ tr) ∧
     (∀ dir, main {| configPath := configPath f; stateDir := dir;
                     noState := true; localPort := localPort f |} w
             = main f w)) ∧
  (noState f = false →
     match persistence_NewDiskPersistence w (stateDir f) with
     | None =>
         ∃ tr, trace (main f w)
               = [ConfigLoad (configPath f); ConfigValidate cfg;
                  NewDiskPersistence (stateDir f);
                  NewApp cfg (DiskPersistence (stateDir f))] ++ tr
     | Some err =>
         main f w
         = ([ConfigLoad (configPath f); ConfigValidate cfg;
             NewDiskPersistence (stateDir f)] ++ exitf_events "startup: %+v" err,
            Exit glog_Exit_status)
         ∧ glog_Exit_status ≠ 0
     end).
Proof.
  intros Hf Hl Hv. split.
  - intros Hn. split.
    + destruct (main_calls_NewApp f w cfg MemoryPersistence) as [tr Htr];
        [done..|by left|].
      rewrite Hn in Htr. by eauto.
    + intros dir. unfold main. simpl. rewrite Hn. simpl.
      by rewrite !andb_false_r.
  - intros Hn.
    destruct (persistence_NewDiskPersistence w (stateDir f)) as [err|] eqn:Hd.
    + split; [by apply main_disk_fails|done].
    + destruct (main_calls_NewApp f w cfg (DiskPersistence (stateDir f)))
        as [tr Htr]; [done..|by right|].
      rewrite Hn in Htr. by eauto.
Qed.

(** C6: after a successful start-up, when the interrupt arrives (and the
    server has reported nothing but [ErrServerClosed]), the trace of
    [main] ends with the HTTP interface shut down, then the App shut
    down, then the logs flushed, and the process exits with status 0. *)
Theorem graceful_shutdown_order f w cfg p a :
  starts_up f w cfg p a →
  Forall (λ e, e = ErrServerClosed) (async_http_errors w) →
  sigint w = true →
  main f w
  = (startup_events f cfg p a ++
       [Interrupt; Stdout "Shutting down..."; GlogInfo "Shutting down...";
        RestShutdown a (localPort f); AppShutdown a; GlogFlush],
     Ret tt)
  ∧ outcome (main f w) = Exited 0.
Proof.
  intros Hs Herrs Hsig.
  assert (main f w
          = (startup_events f cfg p a ++
               [Interrupt; Stdout "Shutting down..."; GlogInfo "Shutting down...";
                RestShutdown a (localPort f); AppShutdown a; GlogFlush],
             Ret tt)) as Hm.
  { rewrite (main_started f w cfg p a Hs). unfold await_interrupt.
    by rewrite (deliver_closed _ Herrs), Hsig. }
  split; [done|]. by rewrite Hm.
Qed.

(** C7 (amended): when the configuration file fails to load or fails
    validation, [main] writes the diagnostic to stderr and leaves through
    [glog.Exit], whose exit status is 1; the trace holds the load, the
    validation if it was reached, and the diagnostic, so no persistence,
    App or HTTP interface is constructed. *)
Theorem config_failure_exits f w err :
  flags_pass f →
  config_Load w (configPath f) = inr err ∨
  (∃ cfg, config_Load w (configPath f) = inl cfg ∧
          cfg_Validate w cfg = Some err) →
  (∃ pre,
     main f w
     = (pre ++ [Stderr (Sprintf "invalid configuration file: %+v" err);
                GlogExit (Sprintf "invalid configuration file: %+v" err)],
        Exit 1)
     ∧ (pre = [ConfigLoad (configPath f)] ∨
        ∃ cfg, pre = [ConfigLoad (configPath f); ConfigValidate cfg]))
  ∧ outcome (main f w) = Exited 1.
Proof.
  intros Hf [Hl|(cfg & Hl & Hv)].
  - rewrite (main_load_fails f w err Hf Hl). split; [|done].
    exists [ConfigLoad (configPath f)]. split; [done|by left].
  - rewrite (main_validate_fails f w cfg err Hf Hl Hv). split; [|done].
    exists [ConfigLoad (configPath f); ConfigValidate cfg].
    split; [done|by eauto].
Qed.



End AgentProperties.

(** ** The properties of [main] at concrete invocations *)

Section AgentScenarios.

Import Proc Agent Scenario.

Lemma healthy_starts_without_state :
  starts_up without_state healthy "metrics of agent.yaml" MemoryPersistence tt.
Proof. repeat split; try done. - by right. - by left. Qed.

Lemma required_flags_checked_witness :
  main no_config healthy
  = ([Stderr "configuration file must be specified"; FlagUsage], Exit 2)
  ∧ main no_state_dir healthy
    = ([Stderr "state directory must be specified (or use --no-state)";
        FlagUsage], Exit 2)
  ∧ ((localPort with_state = 0 ∧
      main with_state healthy
      = ([Stderr "local-port must be > 0"; FlagUsage], Exit 2)) ∨
     (localPort with_state ≠ 0 ∧
      ∃ tr, trace (main with_state healthy)
            = ConfigLoad (configPath with_state) :: tr)).
Proof.
  split; [|split].
  - by apply (required_flags_checked no_config healthy).
  - by apply (required_flags_checked no_state_dir healthy).
  - apply (required_flags_checked with_state healthy); [done|by left].
Defined.

(** C3: with --local-port -1 and the other flags in order, [main] passes
    the port check (which tests [== 0] only) and loads the configuration,
    whatever the collaborators answer. *)
Theorem negative_port_not_rejected (w : World string unit) :
  ∃ tr, trace (main negative_port w) = ConfigLoad "agent.yaml" :: tr.
Proof.
  apply (main_reaches_loadConfig negative_port w).
  repeat split; try done. by right.
Qed.

Lemma persistence_selected_by_noState_witness :
  (∃ tr, trace (main without_state healthy)
         = [ConfigLoad "agent.yaml"; ConfigValidate "metrics of agent.yaml";
            NewMemoryPersistence;
            NewApp "metrics of agent.yaml" MemoryPersistence] ++ tr)
  ∧ (main with_state readonly_disk
     = ([ConfigLoad "agent.yaml"; ConfigValidate "metrics of agent.yaml";
         NewDiskPersistence "/var/ubbagent"] ++
          exitf_events "startup: %+v" "mkdir /var/ubbagent: read-only file system",
        Exit glog_Exit_status)
     ∧ glog_Exit_status ≠ 0).
Proof.
  split.
  - apply (persistence_selected_by_noState without_state healthy
             "metrics of agent.yaml"); try done.
    repeat split; try done. by right.
  - apply (persistence_selected_by_noState with_state readonly_disk
             "metrics of agent.yaml"); try done.
    repeat split; try done. by left.
Defined.

Lemma graceful_shutdown_order_witness :
  main without_state healthy
  = (startup_events without_state "metrics of agent.yaml" MemoryPersistence tt ++
       [Interrupt; Stdout "Shutting down..."; GlogInfo "Shutting down...";
        RestShutdown tt 3456; AppShutdown tt; GlogFlush],
     Ret tt)
  ∧ outcome (main without_state healthy) = Exited 0.
Proof.
  apply (graceful_shutdown_order without_state healthy
           "metrics of agent.yaml" MemoryPersistence tt).
  - exact healthy_starts_without_state.
  - by repeat constructor.
  - done.
Defined.

(** C7, as claimed, fails: the configuration file cannot be loaded and
    the exit status is 1, not 2. *)
Lemma config_failure_exit_status_not_2 :
  config_Load unreadable_config (configPath with_state)
  = inr "open agent.yaml: no such file or directory"
  ∧ outcome (main with_state unreadable_config) = Exited 1
  ∧ outcome (main with_state unreadable_config) ≠ Exited 2.
Proof. by repeat split. Qed.

Lemma config_failure_exits_witness :
  (∃ pre,
     main with_state unreadable_config
     = (pre ++ [Stderr "invalid configuration file: open agent.yaml: no such file or directory";
                GlogExit "invalid configuration file: open agent.yaml: no such file or directory"],
        Exit 1)
     ∧ (pre = [ConfigLoad "agent.yaml"] ∨
        ∃ cfg, pre = [ConfigLoad "agent.yaml"; ConfigValidate cfg]))
  ∧ outcome (main with_state unreadable_config) = Exited 1.
Proof.
  apply (config_failure_exits with_state unreadable_config
           "open agent.yaml: no such file or directory").
  - repeat split; try done. by left.
  - by left.
Defined.



End AgentScenarios.

(** * Properties of the Aggregator *)

Section AggregatorProperties.

Import Aggregator.
Implicit Types (schema : gmap string ValueKind) (s : State).
Implicit Types (r agg : MetricReport) (k : Key) (t : gmap Key Z).

(** ** Acceptance *)

Lemma violations_nil schema s r :
  violations schema s r = [] ↔
  schema !! name r = Some (valueKind (value r)) ∧
  overlaps s r = false ∧
  startTime r ≤ endTime r.
Proof.
  unfold violations.
  destruct (schema !! name r) as [kind|];
    [destruct (decide (valueKind (value r) = kind)) as [<-|Hk]|];
    destruct (overlaps s r);
    destruct (Z.ltb_spec (endTime r) (startTime r)); simpl.
  all: split; [intros Hv; try discriminate Hv | intros (Hs & Ho & Hr)].
  all: try (repeat split; (done || lia)).
  all: try discriminate; try lia.
  injection Hs as ->. done.
Qed.

Lemma accept_accepted schema s r s' :
  accept schema s r = (s', accepted) →
  violations schema s r = [] ∧
  s' = {| buckets := absorb (buckets s) r;
          lastAcceptedEndTime := advance (lastAcceptedEndTime s) r |}.
Proof.
  unfold accept. destruct (violations schema s r); [|discriminate].
  intros [= <-]. done.
Qed.

Lemma accept_rejected schema s r s' reason :
  accept schema s r = (s', rejected reason) →
  s' = s ∧ ∃ rest, violations schema s r = reason :: rest.
Proof.
  unfold accept. destruct (violations schema s r) as [|reason' rest];
    [discriminate|].
  intros [= <- <-]. eauto.
Qed.


(** ** [lastAcceptedEndTime] never moves back *)

Lemma advance_other t r k : key r ≠ k → advance t r !! k = t !! k.
Proof. intros Hk. unfold advance. by rewrite lookup_insert_ne. Qed.


Lemma advance_key t r :
  ∃ e', advance t r !! key r = Some e' ∧ endTime r ≤ e'.
Proof.
  unfold advance. rewrite lookup_insert_eq.
  destruct (t !! key r); eexists; (split; [done|]); lia.
Qed.






End AggregatorProperties.

(** ** Aggregation within one window *)

Section AggregationProperties.

Import Aggregator.
Implicit Types (schema : gmap string ValueKind) (s : State).
Implicit Types (r a agg : MetricReport) (k : Key) (rs : list MetricReport).
Implicit Types (b : gmap Key MetricReport).









(** *** What a bucket holds after a list of reports was absorbed *)













(** *** The closure rule as DESIGN.md words it *)

Lemma coherent_initial : coherent initial.
Proof. intros k agg Hk. simpl in Hk. by rewrite lookup_empty in Hk. Qed.

Lemma coherent_step schema s i : coherent s → coherent (step schema s i).
Proof.
  intros Hs. destruct i as [r|id ack]; simpl.
  - destruct (accept schema s r) as [s' [|reason]] eqn:E; simpl.
    + apply accept_accepted in E as [Hv ->].
      apply violations_nil in Hv as (_ & Ho & Hr).
      intros k agg. simpl. unfold absorb.
      destruct (decide (key r = k)) as [<-|Hne].
      * rewrite lookup_insert_eq. intros [= <-].
        destruct (advance_key (lastAcceptedEndTime s) r) as (e' & He' & Hle).
        destruct (buckets s !! key r) as [agg0|] eqn:Hb; simpl.
        -- destruct (Hs _ _ Hb) as (Hk0 & Hr0 & e & He & Hle0).
           split; [done|]. split; [lia|].
           unfold advance in *. rewrite lookup_insert_eq in *.
           rewrite He in *. injection He' as <-.
           eexists. split; [done|]. lia.
        -- split; [done|]. split; [done|]. by eauto.
      * rewrite lookup_insert_ne by done. intros Hb.
        destruct (Hs _ _ Hb) as (Hk0 & Hr0 & e & He & Hle0).
        split; [done|]. split; [done|].
        exists e. by rewrite advance_other.
    + by apply accept_rejected in E as [-> _].
  - destruct ack; [|done]. intros k agg Hk. simpl in Hk.
    by rewrite lookup_empty in Hk.
Qed.

Lemma coherent_run schema inputs : ∀ s,
  coherent s → coherent (run schema s inputs).
Proof.
  induction inputs as [|i inputs IH]; intros s Hs; [done|].
  simpl. apply IH. by apply coherent_step.
Qed.

(** On every report the aggregator accepts, the closure rule of the
    specification (minimum start, maximum end) gives what DESIGN.md
    describes: the aggregate's start and the new report's end. *)
Lemma combine_as_designed schema s r s' agg :
  coherent s →
  accept schema s r = (s', accepted) →
  buckets s !! key r = Some agg →
  combine agg r = combine_design agg r.
Proof.
  intros Hs E Hb.
  apply accept_accepted in E as [Hv _].
  apply violations_nil in Hv as (_ & Ho & Hr).
  destruct (Hs _ _ Hb) as (_ & Hr0 & e & He & Hle).
  unfold overlaps in Ho. rewrite He in Ho. apply Z.ltb_ge in Ho.
  unfold combine, combine_design. f_equal; lia.
Qed.

End AggregationProperties.

(** ** The aggregator on concrete reports *)

Section AggregatorScenarios.

Import Aggregator.

(** The basic scenario: [5] over [0,1] then [7] over [1,2] leave one
    aggregate, [12] over [0,2]. *)
Example basic_scenario :
  (accept_all requests initial [req 5 0 1; req 7 1 2]).2 = [accepted; accepted]
  ∧ buckets (accept_all requests initial [req 5 0 1; req 7 1 2]).1 !! ("req", ∅)
    = Some (req 12 0 2).
Proof. split; vm_compute; reflexivity. Qed.

(** A report of the wrong kind that also overlaps is turned away by the
    kind check, which comes first. *)
Example overlap_after_kind_check :
  overlaps after_0_2 (req_as_double 7 1 3) = true
  ∧ (accept requests after_0_2 (req_as_double 7 1 3)).2
    = rejected type_mismatch.
Proof. split; vm_compute; reflexivity. Qed.


(** Fed in the other order, the earlier range arrives after the later
    one and is turned away. *)
Example reordering_can_reject :
  (accept_all requests initial [req 7 1 2; req 5 0 1]).2
  = [accepted; rejected overlapping_window].
Proof. vm_compute. reflexivity. Qed.





End AggregatorScenarios.

(** * Properties of the RetryingSender *)

Section SenderProperties.

Import Aggregator RetryingSender.
Context {Payload : Type} `{Endpoint Payload}.
Variable maxAttempts : nat.
Variable maxLifetime : Z.
Variable backoff : nat → Z → Z.

Local Abbreviation attempts := (attempts maxAttempts maxLifetime backoff).
Local Abbreviation work := (work maxAttempts maxLifetime backoff).
Local Abbreviation step := (step maxAttempts maxLifetime backoff).

Implicit Types (s : Sender Payload) (e : QueueEntry Payload).
Implicit Types (r : EndpointReport Payload) (inputs : list Input).

Lemma blocks_next {A} (x : A) (ns : list nat) (xs : list A) :
  x :: blocks ns xs = blocks (1%nat :: ns) (x :: xs).
Proof. done. Qed.

Lemma blocks_again {A} (x : A) (ns : list nat) (xs : list A) :
  ∃ ns', x :: blocks ns (x :: xs) = blocks ns' (x :: xs).
Proof.
  destruct ns as [|n ns].
  - exists [1%nat]. simpl. by destruct xs.
  - by exists (S n :: ns).
Qed.

(** What one turn of the worker does to the queue: nothing; or the head's
    report is sent and the head is removed; or the head's report is sent
    and the head stays, with the same report. *)
Lemma work_cases now outcome s :
  stored s = queue s →
  (work now outcome s = (s, None)) ∨
  (∃ e rest s',
     queue s = e :: rest ∧
     work now outcome s = (s', Some (endpointReport e)) ∧
     stored s' = queue s' ∧
     (queue s' = rest ∨
      ∃ e', queue s' = e' :: rest ∧ endpointReport e' = endpointReport e)).
Proof.
  intros Hs. unfold RetryingSender.work.
  destruct (queue s) as [|e rest] eqn:Hq; [by left|].
  destruct (now <? nextAttempt e); [by left|].
  right. exists e, rest.
  destruct outcome; try (eexists; split; [done|]; split; [done|];
                         split; [done|]; by left).
  destruct (exhausted maxAttempts maxLifetime now
              (retry_later backoff now e)) eqn:Hx;
    eexists; (split; [done|]); (split; [done|]); (split; [done|]).
  - by left.
  - right. by eexists.
Qed.

(** The sends of a run, from a sender whose mirror is up to date, come in
    blocks: some number of sends of the first report queued, then of the
    second, and so on, through the queue and then the reports built
    during the run. *)
Lemma attempts_blocks inputs : ∀ s,
  stored s = queue s →
  ∃ ns, attempts s inputs
        = blocks ns ((endpointReport <$> queue s) ++ built inputs).
Proof.
  induction inputs as [|i inputs IH]; intros s Hs.
  - by exists [].
  - destruct i as [uuid batch now|now outcome|]; simpl.
    + destruct (IH (enqueue uuid batch now s)) as [ns Hns]; [done|].
      exists ns. rewrite Hns. simpl.
      by rewrite fmap_app, <- app_assoc.
    + destruct (work_cases now outcome s Hs)
        as [->|(e & rest & s' & Hq & -> & Hs' & Hq')].
      * by apply IH.
      * destruct (IH s' Hs') as [ns Hns]. rewrite Hns, Hq.
        destruct Hq' as [->|(e' & -> & He')].
        -- exists (1%nat :: ns). by rewrite fmap_cons.
        -- rewrite !fmap_cons, He'. apply blocks_again.
    + destruct (IH (recover s)) as [ns Hns]; [done|].
      exists ns. rewrite Hns. simpl. by rewrite Hs.
Qed.

Lemma built_dedupId inputs :
  dedupId <$> built (Payload:=Payload) inputs = drawn inputs.
Proof.
  induction inputs as [|i inputs IH]; [done|].
  destruct i as [uuid batch now|now outcome|]; [|exact IH..].
  change (dedupId <$> (buildReport uuid batch :: built inputs)
          = uuid :: drawn inputs).
  by rewrite fmap_cons, IH.
Qed.

(** C8: along any run of a sender that starts empty (reports enqueued,
    worker turns with any outcomes, restarts in between), the sends come
    in blocks, one block per report built and in enqueue order, and every
    send of a block hands over that very report: its dedup identifier is
    the one drawn when the endpoint built it.  A worker turn that sends
    the head's report either removes the head or keeps it with its report
    untouched. *)
Theorem dedup_id_constant_across_retries inputs :
  (∃ ns, attempts empty inputs = blocks ns (built inputs)
         ∧ dedupId <$> attempts empty inputs = blocks ns (drawn inputs)) ∧
  (∀ s now outcome e rest r,
     queue s = e :: rest →
     (work now outcome s).2 = Some r →
     r = endpointReport e ∧
     (queue (work now outcome s).1 = rest ∨
      ∃ e', queue (work now outcome s).1 = e' :: rest ∧
            dedupId (endpointReport e') = dedupId (endpointReport e))).
Proof.
  split.
  - destruct (attempts_blocks inputs empty) as [ns Hns]; [done|].
    simpl in Hns. exists ns. split; [done|].
    rewrite Hns, <- built_dedupId.
    generalize (built (Payload:=Payload) inputs). clear.
    intros rs. revert rs.
    induction ns as [|n ns IH]; intros [|r rs]; simpl; try done.
    by rewrite fmap_app, fmap_replicate, IH.
  - intros s now outcome e rest r Hq. unfold RetryingSender.work. rewrite Hq.
    destruct (now <? nextAttempt e); simpl; [done|].
    intros [= <-]. split; [done|].
    destruct outcome; simpl; try by left.
    destruct (exhausted maxAttempts maxLifetime now
                (retry_later backoff now e)); simpl; [by left|].
    right. by eexists.
Qed.

End SenderProperties.

Section SenderScenarios.

Import Aggregator RetryingSender.

(** The report is sent three times, each time under [id-1]. *)
Example two_retries_same_id :
  dedupId <$> attempts 5 100 doubling empty two_retries
  = ["id-1"; "id-1"; "id-1"].
Proof. vm_compute. reflexivity. Qed.

Lemma dedup_id_constant_across_retries_witness :
  (∃ ns, dedupId <$> attempts 5 100 doubling empty two_retries
         = blocks ns ["id-1"])
  ∧ (queue (work 5 100 doubling 0 transient_failure
              (enqueue "id-1" batch_1 0 empty)).1 = []
     ∨ ∃ e', queue (work 5 100 doubling 0 transient_failure
                      (enqueue "id-1" batch_1 0 empty)).1 = [e']
             ∧ dedupId (endpointReport e') = "id-1").
Proof.
  destruct (dedup_id_constant_across_retries 5 100 doubling two_retries)
    as [(ns & _ & Hns) Hwork].
  split; [by exists ns|].
  destruct (Hwork (enqueue "id-1" batch_1 0 empty) 0 transient_failure
              {| endpointReport := buildReport "id-1" batch_1;
                 firstAttempt := 0; nextAttempt := 0; failureCount := 0 |}
              [] (buildReport "id-1" batch_1)) as [_ Hq]; [done..|].
  exact Hq.
Defined.

End SenderScenarios.

(** * Further properties of [main] *)

Section AgentRuns.

Import Proc Agent.
Context {Config App : Type}.
Implicit Types (f : Flags) (w : World Config App).

(** Unfold [main] and step over the three flag checks. *)
Ltac through_checks H :=
  let Hc := fresh "Hc" in
  let Hs := fresh "Hs" in
  let Hp := fresh "Hp" in
  destruct H as (Hc & Hs & Hp);
  unfold main;
  rewrite (eqb_empty_false _ Hc), (state_check_false _ Hs),
    (proj2 (Z.eqb_neq _ _) Hp).

Lemma flags_cases f :
  flags_pass f ∨
  configPath f = "" ∨
  (configPath f ≠ "" ∧ stateDir f = "" ∧ noState f = false) ∨
  (configPath f ≠ "" ∧ (stateDir f ≠ "" ∨ noState f = true) ∧ localPort f = 0).
Proof.
  unfold flags_pass.
  destruct (decide (configPath f = "")) as [Hc|Hc]; [by right; left|].
  assert (stateDir f ≠ "" ∨ noState f = true ∨
          (stateDir f = "" ∧ noState f = false)) as [Hs|[Hs|Hs]].
  { destruct (decide (stateDir f = "")); [|by left].
    destruct (noState f); [by right; left|by right; right]. }
  3:{ right; right; left. by destruct Hs. }
  all: destruct (decide (localPort f = 0)) as [Hp|Hp].
  all: first [ by left; repeat split; auto
             | right; right; right; repeat split; auto ].
Qed.

Lemma errors_cases (errs : list HttpError) :
  only_closed errs ∨
  ∃ pre e post, errs = pre ++ e :: post ∧ only_closed pre ∧ e ≠ ErrServerClosed.
Proof.
  induction errs as [|e errs [IH|(pre & e' & post & -> & Hpre & He')]].
  - left. constructor.
  - destruct (decide (e = ErrServerClosed)) as [->|He].
    + left. by constructor.
    + right. exists [], e, errs. split; [done|]. split; [constructor|done].
  - destruct (decide (e = ErrServerClosed)) as [->|He].
    + right. exists (ErrServerClosed :: pre), e', post.
      split; [done|]. split; [by constructor|done].
    + right. exists [], e, (pre ++ e' :: post).
      split; [done|]. split; [constructor|done].
Qed.

Lemma main_NewApp_fails f w cfg p err :
  flags_pass f →
  config_Load w (configPath f) = inl cfg →
  cfg_Validate w cfg = None →
  persistence_ready f w p →
  app_NewApp w cfg p = inr err →
  main f w
  = ([ConfigLoad (configPath f); ConfigValidate cfg;
      persistence_event f; NewApp cfg p] ++ exitf_events "startup: %+v" err,
     Exit 1).
Proof.
  intros Hf Hl Hv Hp Ha. through_checks Hf. unfold loadConfig, persistence_event.
  rewrite Hl, Hv.
  destruct Hp as [(Hn & ->)|(Hn & Hd & ->)]; rewrite Hn; [|rewrite Hd]; simpl;
    by rewrite Ha.
Qed.

Lemma main_Start_fails f w cfg p a err :
  flags_pass f →
  config_Load w (configPath f) = inl cfg →
  cfg_Validate w cfg = None →
  persistence_ready f w p →
  app_NewApp w cfg p = inl a →
  rest_Start w a (localPort f) = Some err →
  main f w
  = ([ConfigLoad (configPath f); ConfigValidate cfg;
      persistence_event f; NewApp cfg p;
      NewHttpInterface a (localPort f); RestStart a (localPort f)] ++
       exitf_events "startup: %+v" err,
     Exit 1).
Proof.
  intros Hf Hl Hv Hp Ha Hr. through_checks Hf.
  unfold loadConfig, persistence_event. rewrite Hl, Hv.
  destruct Hp as [(Hn & ->)|(Hn & Hd & ->)]; rewrite Hn; [|rewrite Hd]; simpl;
    rewrite Ha; simpl; by rewrite Hr.
Qed.

Lemma Run_sound f w (m : Proc.t (Event Config App) unit) :
  Run f w m → m = main f w.
Proof.
  intros HR. destruct HR as
      [Hc|Hc Hs Hn|Hc Hs Hp|err Hf Hl|cfg err Hf Hl Hv|cfg err Hf Hl Hv Hn Hd
      |cfg p err Hf Hl Hv Hp Ha|cfg p a err Hf Hl Hv Hp Ha Hr
      |cfg p a pre e post Hs Herrs Hpre He|cfg p a Hs Herrs Hsig
      |cfg p a Hs Herrs Hsig].
  - unfold main. by rewrite Hc.
  - unfold main. by rewrite (eqb_empty_false _ Hc), Hs, Hn.
  - unfold main.
    by rewrite (eqb_empty_false _ Hc), (state_check_false _ Hs), Hp.
  - symmetry. by apply main_load_fails.
  - symmetry. by apply main_validate_fails.
  - symmetry. by apply main_disk_fails.
  - symmetry. by apply main_NewApp_fails.
  - symmetry. by apply main_Start_fails.
  - rewrite (main_started f w cfg p a Hs). unfold await_interrupt.
    by rewrite Herrs, (deliver_fatal pre post e Hpre He).
  - rewrite (main_started f w cfg p a Hs). unfold await_interrupt.
    by rewrite (deliver_closed _ Herrs), Hsig.
  - rewrite (main_started f w cfg p a Hs). unfold await_interrupt.
    rewrite (deliver_closed _ Herrs), Hsig. simpl.
    by rewrite ?app_nil_r.
Qed.

Lemma Run_complete f w : Run f w (main f w).
Proof.
  destruct (flags_cases f) as [Hf|[Hc|[(Hc & Hs & Hn)|(Hc & Hs & Hp)]]].
  2:{ replace (main f w) with
        (([Stderr "configuration file must be specified"; FlagUsage], Exit 2)
           : Proc.t (Event Config App) unit); [by constructor|].
      unfold main. by rewrite Hc. }
  2:{ replace (main f w) with
        (([Stderr "state directory must be specified (or use --no-state)";
           FlagUsage], Exit 2) : Proc.t (Event Config App) unit);
        [by constructor|].
      unfold main. by rewrite (eqb_empty_false _ Hc), Hs, Hn. }
  2:{ replace (main f w) with
        (([Stderr "local-port must be > 0"; FlagUsage], Exit 2)
           : Proc.t (Event Config App) unit);
        [by constructor|].
      unfold main.
      by rewrite (eqb_empty_false _ Hc), (state_check_false _ Hs), Hp. }
  destruct (config_Load w (configPath f)) as [cfg|err] eqn:Hl.
  2:{ rewrite (main_load_fails f w err Hf Hl). by constructor. }
  destruct (cfg_Validate w cfg) as [err|] eqn:Hv.
  { rewrite (main_validate_fails f w cfg err Hf Hl Hv).
    by apply run_validate_fails. }
  assert ((∃ err, noState f = false ∧
                  persistence_NewDiskPersistence w (stateDir f) = Some err) ∨
          ∃ p, persistence_ready f w p) as [(err & Hn & Hd)|[p Hp]].
  { unfold persistence_ready. destruct (noState f).
    - right. exists MemoryPersistence. by left.
    - destruct (persistence_NewDiskPersistence w (stateDir f)) as [err|].
      + left. by exists err.
      + right. exists (DiskPersistence (stateDir f)). by right. }
  { rewrite (main_disk_fails f w cfg err Hf Hl Hv Hn Hd).
    by apply run_disk_fails. }
  destruct (app_NewApp w cfg p) as [a|err] eqn:Ha.
  2:{ rewrite (main_NewApp_fails f w cfg p err Hf Hl Hv Hp Ha).
      by apply run_NewApp_fails. }
  destruct (rest_Start w a (localPort f)) as [err|] eqn:Hr.
  { rewrite (main_Start_fails f w cfg p a err Hf Hl Hv Hp Ha Hr).
    by apply run_Start_fails. }
  assert (starts_up f w cfg p a) as Hs by done.
  rewrite (main_started f w cfg p a Hs). unfold await_interrupt.
  destruct (errors_cases (async_http_errors w))
    as [Hall|(pre & e & post & Herrs & Hpre & He)].
  - rewrite (deliver_closed _ Hall).
    destruct (sigint w) eqn:Hsig; simpl.
    + by apply run_interrupted.
    + rewrite ?app_nil_r. by apply run_waiting.
  - rewrite Herrs, (deliver_fatal pre post e Hpre He).
    by eapply run_http_fails.
Qed.

(** Case analysis on the run of [main]; the equation [Hm] keeps what
    [main f w] is. *)
Ltac by_runs f w :=
  let HR := fresh "HR" in
  let m := fresh "m" in
  let Hm := fresh "Hm" in
  pose proof (Run_complete f w) as HR;
  remember (main f w) as m eqn:Hm;
  destruct HR.

(** Look for an event in an explicit trace; each candidate is put in its
    place and the context simplified. *)
Ltac find_event Hin :=
  unfold startup_events, shutdown_events, exitf_events, persistence_event in Hin;
  simpl in Hin;
  try match type of Hin with
      | context [if noState ?g then _ else _] => destruct (noState g) eqn:?
      end;
  repeat first
    [ apply elem_of_nil in Hin; contradiction
    | apply elem_of_cons in Hin as [Hin|Hin];
      [first [discriminate Hin | simplify_eq; simpl in *; try contradiction]|]
    | apply elem_of_app in Hin as [Hin|Hin] ].


(** X3: [main] returns, so that the process exits with status 0, exactly
    when start-up succeeds, the server reports nothing but
    [ErrServerClosed], and the interrupt arrives. *)
Theorem exit_0_iff_graceful f w :
  outcome (main f w) = Exited 0 ↔
  ∃ cfg p a,
    starts_up f w cfg p a ∧ only_closed (async_http_errors w) ∧ sigint w = true.
Proof.
  split.
  - by_runs f w; unfold outcome; simpl; intros Ho; try discriminate Ho.
    by eauto 10.
  - intros (cfg & p & a & Hs & Herrs & Hsig).
    by rewrite <- (Run_sound f w _ (run_interrupted f w cfg p a Hs Herrs Hsig)).
Qed.

(** X4: [main] stays blocked on the signal channel exactly when start-up
    succeeds, the server reports nothing but [ErrServerClosed], and no
    interrupt arrives; nothing is shut down then. *)
Theorem waits_iff_no_interrupt f w :
  outcome (main f w) = Waiting ↔
  ∃ cfg p a,
    starts_up f w cfg p a ∧ only_closed (async_http_errors w) ∧
    sigint w = false ∧ trace (main f w) = startup_events f cfg p a.
Proof.
  split.
  - by_runs f w; unfold outcome; simpl; intros Ho; try discriminate Ho.
    by eauto 10.
  - intros (cfg & p & a & Hs & Herrs & Hsig & _).
    by rewrite <- (Run_sound f w _ (run_waiting f w cfg p a Hs Herrs Hsig)).
Qed.

(** X5: once [flag.Parse] has returned, the exit status is 0, 1 or 2,
    and no exit other than 0 is silent: status 2 comes after one line on
    stderr and the usage message, and with status 1 a line was written to
    stderr and handed to [glog.Exit]. *)
Theorem nonzero_exit_has_diagnostic f w c :
  outcome (main f w) = Exited c →
  c = 0 ∨
  (c = 2 ∧ ∃ msg, trace (main f w) = [Stderr msg; FlagUsage]) ∨
  (c = 1 ∧ ∃ msg, Stderr msg ∈ trace (main f w) ∧
                  GlogExit msg ∈ trace (main f w)).
Proof.
  by_runs f w; unfold outcome, trace, result; cbn [fst snd]; intros [= <-].
  1-3: right; left; split; [done|]; by eexists.
  7: by left.
  all: right; right; split; [done|]; unfold exitf_events.
  all: eexists.
  all: rewrite ?elem_of_app, !elem_of_cons.
  all: split; [repeat first [left; reflexivity | right]|].
  all: repeat first [left; reflexivity | right].
Qed.

(** X6: nothing is shut down and no log is flushed before the interrupt
    was received: an event of the shutdown sequence on the trace comes
    after the receipt of the interrupt. *)
Theorem shutdown_only_after_interrupt f w ev :
  ev ∈ trace (main f w) →
  is_shutdown ev →
  sigint w = true ∧
  ∃ pre post, trace (main f w) = pre ++ Interrupt :: post ∧ ev ∈ post.
Proof.
  by_runs f w; unfold outcome, trace, result; cbn [fst snd]; intros Hin Hev.
  10:{ split; [done|]. exists (startup_events f cfg p a), (shutdown_events f a).
       split; [done|].
       apply elem_of_app in Hin as [Hin|Hin]; [exfalso; by find_event Hin|].
       apply elem_of_cons in Hin as [->|Hin]; [done|done]. }
  all: exfalso; find_event Hin.
Qed.

(** Take a successful start-up apart. *)
Ltac open_starts_up :=
  repeat match goal with
         | H : starts_up _ _ _ _ _ |- _ =>
             let Hf := fresh "Hf" in
             let Hl := fresh "Hl" in
             let Hv := fresh "Hv" in
             let Hp := fresh "Hp" in
             let Ha := fresh "Ha" in
             let Hr := fresh "Hr" in
             destruct H as (Hf & Hl & Hv & Hp & Ha & Hr)
         end.

(** X7: an HTTP interface is only ever constructed on the port given by
    --local-port and on the App that [app.NewApp] returned for the
    validated configuration and the selected persistence. *)
Theorem http_interface_only_on_built_app f w a port :
  NewHttpInterface a port ∈ trace (main f w) →
  port = localPort f ∧
  ∃ cfg p,
    config_valid f w cfg ∧ persistence_ready f w p ∧
    app_NewApp w cfg p = inl a.
Proof.
  by_runs f w; unfold trace; cbn [fst]; intros Hin; open_starts_up.
  all: find_event Hin.
  all: split; [done|].
  all: exists cfg, p.
  all: repeat split; assumption.
Qed.

Lemma persistence_event_only f w ev :
  ev ∈ trace (main f w) →
  constructs_persistence ev →
  ev = persistence_event f ∧ ∃ cfg, config_valid f w cfg.
Proof.
  by_runs f w; unfold trace; cbn [fst]; intros Hin Hev; open_starts_up.
  all: unfold persistence_event.
  all: find_event Hin.
  all: try match goal with
           | H : noState ?g = _ |- context [noState ?g] => rewrite H
           end.
  all: split; [done|].
  all: exists cfg.
  all: split; assumption.
Qed.

(** X8: a persistence is constructed only once the configuration has
    loaded and passed validation, and only the one --no-state selects:
    the in-memory one with --no-state, never together with a disk one;
    the disk one, rooted at --state-dir, without it. *)
Theorem persistence_follows_noState f w :
  (NewMemoryPersistence ∈ trace (main f w) →
     noState f = true ∧ (∃ cfg, config_valid f w cfg) ∧
     ∀ d, NewDiskPersistence d ∉ trace (main f w)) ∧
  (∀ d, NewDiskPersistence d ∈ trace (main f w) →
     noState f = false ∧ d = stateDir f ∧ (∃ cfg, config_valid f w cfg) ∧
     NewMemoryPersistence ∉ trace (main f w)).
Proof.
  split.
  - intros Hin.
    destruct (persistence_event_only f w _ Hin) as [Hev Hcfg]; [done|].
    unfold persistence_event in Hev.
    destruct (noState f) eqn:Hn; [|discriminate Hev].
    split; [done|]. split; [done|]. intros d Hd.
    destruct (persistence_event_only f w _ Hd) as [Hev' _]; [done|].
    unfold persistence_event in Hev'. rewrite Hn in Hev'. discriminate Hev'.
  - intros d Hin.
    destruct (persistence_event_only f w _ Hin) as [Hev Hcfg]; [done|].
    unfold persistence_event in Hev.
    destruct (noState f) eqn:Hn; [discriminate Hev|].
    injection Hev as ->.
    split; [done|]. split; [done|]. split; [done|]. intros Hm.
    destruct (persistence_event_only f w _ Hm) as [Hev' _]; [done|].
    unfold persistence_event in Hev'. rewrite Hn in Hev'. discriminate Hev'.
Qed.

(** X9: the persistence handed to [app.NewApp] is the one lines 46-55
    constructed for the flags, and its construction is on the trace. *)
Theorem NewApp_gets_selected_persistence f w cfg p :
  NewApp cfg p ∈ trace (main f w) →
  persistence_ready f w p ∧ persistence_event f ∈ trace (main f w).
Proof.
  intros Hin. split.
  - revert Hin.
    by_runs f w; unfold trace; cbn [fst]; intros Hin; open_starts_up.
    all: by find_event Hin.
  - destruct (Run_complete f w) as
      [Hc|Hc Hs Hn|Hc Hs Hp|err Hf Hl|cfg0 err Hf Hl Hv|cfg0 err Hf Hl Hv Hn Hd
      |cfg0 p0 err Hf Hl Hv Hp Ha|cfg0 p0 a err Hf Hl Hv Hp Ha Hr
      |cfg0 p0 a pre e post Hs Herrs Hpre He|cfg0 p0 a Hs Herrs Hsig
      |cfg0 p0 a Hs Herrs Hsig];
      unfold trace in *; cbn [fst] in *.
    1-6: by find_event Hin.
    all: unfold startup_events, persistence_event.
    all: rewrite ?elem_of_app, !elem_of_cons; tauto.
Qed.

(** X10: the line [Listening locally on port N] is printed only when
    start-up has succeeded: flags in order, configuration valid,
    persistence and App constructed, and [rest.Start] returning no
    error. *)
Theorem listening_only_when_started f w :
  Stdout (Sprintf "Listening locally on port %v" (pretty (localPort f)))
    ∈ trace (main f w) →
  ∃ cfg p a, starts_up f w cfg p a.
Proof.
  by_runs f w; unfold trace; cbn [fst]; intros Hin; try by eauto.
  all: by find_event Hin.
Qed.

(** X11: [loadConfig] returns a configuration exactly when [config.Load]
    yields it and [cfg.Validate] accepts it; validation is attempted
    exactly on a configuration that loaded; and every other way out is an
    exit with status 1. *)
Theorem loadConfig_returns_validated w path :
  (∀ cfg, result (loadConfig w path) = Ret cfg ↔
          config_Load w path = inl cfg ∧ cfg_Validate w cfg = None) ∧
  (∀ cfg, ConfigValidate cfg ∈ trace (loadConfig w path) ↔
          config_Load w path = inl cfg) ∧
  (∀ c, result (loadConfig w path) = Exit c → c = 1) ∧
  result (loadConfig w path) ≠ Block.
Proof.
  unfold loadConfig, trace, result.
  destruct (config_Load w path) as [cfg0|err] eqn:Hl; simpl;
    [destruct (cfg_Validate w cfg0) as [err|] eqn:Hv; simpl|].
  all: repeat split; try done.
  all: try solve
         [ intros; simplify_eq; done
         | intros; simplify_eq; congruence
         | intros [? ?]; simplify_eq; congruence
         | intros Hin; rewrite !elem_of_cons, elem_of_nil in Hin;
           intuition simplify_eq; done
         | intros; simplify_eq; rewrite !elem_of_cons; tauto ].
Qed.

(** X12: when [app.NewApp] returns an error, [main] writes
    [startup: <error>] to stderr and exits with status 1; no HTTP
    interface is constructed and nothing is printed on stdout. *)
Theorem NewApp_failure_is_fatal f w cfg p err :
  flags_pass f →
  config_valid f w cfg →
  persistence_ready f w p →
  app_NewApp w cfg p = inr err →
  main f w
  = ([ConfigLoad (configPath f); ConfigValidate cfg;
      persistence_event f; NewApp cfg p;
      Stderr (Sprintf "startup: %+v" err);
      GlogExit (Sprintf "startup: %+v" err)],
     Exit 1).
Proof.
  intros Hf [Hl Hv] Hp Ha.
  by rewrite (main_NewApp_fails f w cfg p err).
Qed.

(** X13: when [rest.Start] returns an error, [main] writes
    [startup: <error>] to stderr and exits with status 1 right after the
    call: the listening line is not printed and no signal handler is
    installed. *)
Theorem rest_Start_failure_is_fatal f w cfg p a err :
  flags_pass f →
  config_valid f w cfg →
  persistence_ready f w p →
  app_NewApp w cfg p = inl a →
  rest_Start w a (localPort f) = Some err →
  main f w
  = ([ConfigLoad (configPath f); ConfigValidate cfg;
      persistence_event f; NewApp cfg p;
      NewHttpInterface a (localPort f); RestStart a (localPort f);
      Stderr (Sprintf "startup: %+v" err);
      GlogExit (Sprintf "startup: %+v" err)],
     Exit 1).
Proof.
  intros Hf [Hl Hv] Hp Ha Hr.
  by rewrite (main_Start_fails f w cfg p a err).
Qed.

(** X14: [main] calls [glog.Info] only through [infof]: every message
    it hands to [glog.Info] is a line it has printed on stdout. *)
Theorem info_log_lines_were_printed f w msg :
  GlogInfo msg ∈ trace (main f w) → Stdout msg ∈ trace (main f w).
Proof.
  by_runs f w; unfold trace; cbn [fst]; intros Hin.
  all: find_event Hin.
  all: unfold startup_events, shutdown_events.
  all: rewrite ?elem_of_app, !elem_of_cons; tauto.
Qed.

End AgentRuns.

(** ** The further properties of [main] at concrete invocations *)

Section AgentRunScenarios.

Import Proc Agent Scenario.

(** Membership in a trace that evaluates to an explicit list. *)
Ltac on_trace :=
  apply list_elem_of_In; vm_compute;
  repeat first [left; reflexivity | right].

Lemma without_state_passes : flags_pass without_state.
Proof. repeat split; try done. by right. Qed.

Lemma never_interrupted_starts :
  starts_up without_state never_interrupted "metrics of agent.yaml"
    MemoryPersistence tt.
Proof. repeat split; try done. - by right. - by left. Qed.


Lemma exit_0_iff_graceful_witness :
  outcome (main without_state healthy) = Exited 0.
Proof.
  apply (exit_0_iff_graceful without_state healthy).
  exists "metrics of agent.yaml", MemoryPersistence, tt.
  split; [exact healthy_starts_without_state|].
  split; [by repeat constructor|done].
Defined.

Lemma waits_iff_no_interrupt_witness :
  outcome (main without_state never_interrupted) = Waiting.
Proof.
  apply (waits_iff_no_interrupt without_state never_interrupted).
  exists "metrics of agent.yaml", MemoryPersistence, tt.
  split; [exact never_interrupted_starts|].
  split; [constructor|]. split; [done|]. vm_compute. reflexivity.
Defined.

Lemma nonzero_exit_has_diagnostic_witness :
  1 = 0 ∨
  (1 = 2 ∧ ∃ msg, trace (main with_state unreadable_config)
                  = [Stderr msg; FlagUsage]) ∨
  (1 = 1 ∧ ∃ msg, Stderr msg ∈ trace (main with_state unreadable_config) ∧
                  GlogExit msg ∈ trace (main with_state unreadable_config)).
Proof.
  apply (nonzero_exit_has_diagnostic with_state unreadable_config 1).
  vm_compute. reflexivity.
Defined.

Lemma shutdown_only_after_interrupt_witness :
  sigint healthy = true
  ∧ ∃ pre post,
      trace (main without_state healthy) = pre ++ Interrupt :: post
      ∧ GlogFlush ∈ post.
Proof.
  apply (shutdown_only_after_interrupt without_state healthy GlogFlush);
    [on_trace|done].
Defined.

Lemma http_interface_only_on_built_app_witness :
  3456 = localPort without_state
  ∧ ∃ cfg p,
      config_valid without_state healthy cfg
      ∧ persistence_ready without_state healthy p
      ∧ app_NewApp healthy cfg p = inl tt.
Proof.
  apply (http_interface_only_on_built_app without_state healthy tt 3456).
  on_trace.
Defined.

Lemma persistence_follows_noState_witness :
  noState without_state = true
  ∧ (∃ cfg, config_valid without_state healthy cfg)
  ∧ ∀ d, NewDiskPersistence d ∉ trace (main without_state healthy).
Proof.
  apply (persistence_follows_noState without_state healthy). on_trace.
Defined.

Lemma NewApp_gets_selected_persistence_witness :
  persistence_ready without_state healthy MemoryPersistence
  ∧ persistence_event without_state ∈ trace (main without_state healthy).
Proof.
  apply (NewApp_gets_selected_persistence without_state healthy
           "metrics of agent.yaml" MemoryPersistence).
  on_trace.
Defined.

Lemma listening_only_when_started_witness :
  ∃ cfg p a, starts_up without_state healthy cfg p a.
Proof.
  apply (listening_only_when_started without_state healthy). on_trace.
Defined.

Lemma loadConfig_returns_validated_witness :
  result (loadConfig healthy "agent.yaml") = Ret "metrics of agent.yaml"
  ∧ ConfigValidate "metrics of agent.yaml"
      ∈ trace (loadConfig healthy "agent.yaml").
Proof.
  destruct (loadConfig_returns_validated healthy "agent.yaml")
    as (Hret & Hval & _ & _).
  split; [by apply Hret|by apply Hval].
Defined.

Lemma NewApp_failure_is_fatal_witness :
  main without_state app_rejects
  = ([ConfigLoad "agent.yaml"; ConfigValidate "metrics of agent.yaml";
      NewMemoryPersistence; NewApp "metrics of agent.yaml" MemoryPersistence;
      Stderr "startup: unsupported endpoint";
      GlogExit "startup: unsupported endpoint"],
     Exit 1).
Proof.
  apply (NewApp_failure_is_fatal without_state app_rejects
           "metrics of agent.yaml" MemoryPersistence "unsupported endpoint").
  - exact without_state_passes.
  - by split.
  - by left.
  - done.
Defined.

Lemma rest_Start_failure_is_fatal_witness :
  main without_state start_refused
  = ([ConfigLoad "agent.yaml"; ConfigValidate "metrics of agent.yaml";
      NewMemoryPersistence; NewApp "metrics of agent.yaml" MemoryPersistence;
      NewHttpInterface tt 3456; RestStart tt 3456;
      Stderr "startup: http: already started";
      GlogExit "startup: http: already started"],
     Exit 1).
Proof.
  apply (rest_Start_failure_is_fatal without_state start_refused
           "metrics of agent.yaml" MemoryPersistence tt "http: already started").
  - exact without_state_passes.
  - by split.
  - by left.
  - done.
  - done.
Defined.

Lemma info_log_lines_were_printed_witness :
  Stdout "Shutting down..." ∈ trace (main without_state healthy).
Proof.
  apply (info_log_lines_were_printed without_state healthy "Shutting down...").
  on_trace.
Defined.

End AgentRunScenarios.

(** * Further properties of the Aggregator, as DESIGN.md describes it *)

Section AggregatorMore.

Import Aggregator.
Implicit Types (schema : gmap string ValueKind) (s : State).
Implicit Types (r agg : MetricReport) (k : Key).

(** X15: reports that differ in name or label set are stored separately
    (DESIGN.md, lines 22-25): whatever [accept] does with a report, every
    other bucket and its [lastAcceptedEndTime] stay as they were. *)
Theorem accept_leaves_other_buckets schema s r k :
  k ≠ key r →
  buckets (accept schema s r).1 !! k = buckets s !! k ∧
  lastAcceptedEndTime (accept schema s r).1 !! k = lastAcceptedEndTime s !! k.
Proof.
  intros Hk.
  destruct (accept schema s r) as [s' [|reason]] eqn:E; simpl.
  - apply accept_accepted in E as [_ ->]. simpl. unfold absorb.
    rewrite lookup_insert_ne by done. by rewrite advance_other.
  - by apply accept_rejected in E as [-> _].
Qed.

(** X16: a report over a proper range ([startTime < endTime]) is not
    counted twice (DESIGN.md, lines 34-42): once it was accepted, the same
    report sent again is refused for its overlapping window and the state
    stays as it was. *)
Theorem retried_report_rejected schema s r s' :
  accept schema s r = (s', accepted) →
  startTime r < endTime r →
  accept schema s' r = (s', rejected overlapping_window).
Proof.
  intros E Hr.
  apply accept_accepted in E as [Hv ->].
  apply violations_nil in Hv as (Hok & _ & _).
  destruct (advance_key (lastAcceptedEndTime s) r) as (e' & He' & Hle).
  unfold accept, violations, overlaps. simpl.
  rewrite Hok, He'.
  destruct (decide (valueKind (value r) = valueKind (value r))); [|done].
  assert ((startTime r <? e') = true) as -> by (apply Z.ltb_lt; lia).
  done.
Qed.

(** X17: what [accept] stores for an accepted report is what DESIGN.md,
    lines 27-32, describes: a report for a new bucket is stored as it is;
    a report for an existing bucket leaves there the sum of the values
    over the range from the aggregate's start to the report's end, under
    the same name and labels. *)
Theorem accept_stores_design_aggregate schema s r s' :
  coherent s →
  accept schema s r = (s', accepted) →
  buckets s' !! key r
  = Some (match buckets s !! key r with
          | Some agg => combine_design agg r
          | None => r
          end).
Proof.
  intros Hs E.
  destruct (buckets s !! key r) as [agg|] eqn:Hb.
  - rewrite <- (combine_as_designed schema s r s' agg Hs E Hb).
    apply accept_accepted in E as [_ ->]. simpl. unfold absorb.
    by rewrite lookup_insert_eq, Hb.
  - apply accept_accepted in E as [_ ->]. simpl. unfold absorb.
    by rewrite lookup_insert_eq, Hb.
Qed.

Lemma coherent_batch_keys s :
  coherent s →
  key <$> (map_to_list (buckets s)).*2 = (map_to_list (buckets s)).*1.
Proof.
  intros Hs. rewrite <- list_fmap_compose.
  apply Forall_fmap_ext_1, Forall_forall.
  intros [k agg] Hin. apply elem_of_map_to_list in Hin.
  by destruct (Hs k agg Hin) as [Hk _].
Qed.

(** X18: the batch formed when a window closes (DESIGN.md, lines 44-45)
    holds at most one report per name and label set, each over a range
    whose start is not after its end, whatever reports and window closes
    came before. *)
Theorem batch_has_one_entry_per_key schema inputs id ack :
  NoDup (key <$> reports (closeWindow id ack (run schema initial inputs)).2) ∧
  Forall (λ r, startTime r ≤ endTime r)
    (reports (closeWindow id ack (run schema initial inputs)).2).
Proof.
  pose proof (coherent_run schema inputs initial coherent_initial) as Hs.
  simpl. split.
  - rewrite (coherent_batch_keys _ Hs). apply NoDup_fst_map_to_list.
  - apply Forall_forall. intros r Hin.
    apply list_elem_of_fmap in Hin as [[k agg] [-> Hin]].
    apply elem_of_map_to_list in Hin.
    by destruct (Hs k agg Hin) as (_ & Hr & _).
Qed.

End AggregatorMore.

Section AggregatorMoreScenarios.

Import Aggregator.

Lemma accepted_pair schema s r :
  (accept schema s r).2 = accepted →
  accept schema s r = ((accept schema s r).1, accepted).
Proof. destruct (accept schema s r) as [s' v]. simpl. by intros ->. Qed.

Lemma after_0_2_coherent : coherent after_0_2.
Proof. exact (coherent_step requests initial (Report (req 5 0 2)) coherent_initial). Qed.

Lemma accept_leaves_other_buckets_witness :
  buckets (accept requests after_0_2 (cpu 1 0 1)).1 !! ("req", ∅)
  = buckets after_0_2 !! ("req", ∅)
  ∧ lastAcceptedEndTime (accept requests after_0_2 (cpu 1 0 1)).1 !! ("req", ∅)
    = lastAcceptedEndTime after_0_2 !! ("req", ∅).
Proof.
  apply (accept_leaves_other_buckets requests after_0_2 (cpu 1 0 1) ("req", ∅)).
  unfold key. simpl. intros Hk. discriminate Hk.
Defined.

Lemma retried_report_rejected_witness :
  accept requests after_0_2 (req 5 0 2)
  = (after_0_2, rejected overlapping_window).
Proof.
  apply (retried_report_rejected requests initial (req 5 0 2) after_0_2).
  - apply accepted_pair. vm_compute. reflexivity.
  - simpl. lia.
Defined.

(** Without a proper range there is no such protection: an
    instantaneous report sent twice is accepted twice and counted
    twice. *)
Example instantaneous_report_counted_twice :
  (accept_all requests initial [req 5 3 3; req 5 3 3]).2 = [accepted; accepted]
  ∧ value <$> buckets (accept_all requests initial [req 5 3 3; req 5 3 3]).1
                !! ("req", ∅)
    = Some (Int64Value 10).
Proof. split; vm_compute; reflexivity. Qed.

Lemma accept_stores_design_aggregate_witness :
  buckets (accept requests after_0_2 (req 7 2 3)).1 !! key (req 7 2 3)
  = Some (req 12 0 3).
Proof.
  rewrite (accept_stores_design_aggregate requests after_0_2 (req 7 2 3)
             (accept requests after_0_2 (req 7 2 3)).1).
  - vm_compute. reflexivity.
  - exact after_0_2_coherent.
  - apply accepted_pair. vm_compute. reflexivity.
Defined.

End AggregatorMoreScenarios.
